(** * Snake game: shallow embedding of [useSnakeGame] (src/hooks/useSnakeGame.ts)

    The hook keeps one [GameState] in a React state cell; every operation is
    a functional update [prev => next] of that cell.  We model each updater
    as a Rocq function on [GameState].  A JavaScript exception thrown by an
    updater is modelled as [None]. *)

From Stdlib Require Import String.
From Stdlib Require Import ZArith List Bool Lia Permutation.
Import ListNotations.
Open Scope Z_scope.

(** ** Types (src/types/game.ts) *)

Record Position := mkPos { x : Z ; y : Z }.

Inductive Direction := UP | DOWN | LEFT | RIGHT.

Inductive GameStatus := NOT_STARTED | PLAYING | GAME_OVER | WON.

Record GameState := mkState {
  snake : list Position;
  direction : Direction;
  nextDirection : option Direction;   (* [Direction | null] *)
  food : Position;
  score : Z;
  status : GameStatus;
  boardSize : Z
}.

(** Object spreads [{ ...s, field: v }]. *)
Definition with_direction (s : GameState) (d : Direction) : GameState :=
  mkState (snake s) d (nextDirection s) (food s) (score s) (status s) (boardSize s).
Definition with_nextDirection (s : GameState) (d : option Direction) : GameState :=
  mkState (snake s) (direction s) d (food s) (score s) (status s) (boardSize s).
Definition with_status (s : GameState) (st : GameStatus) : GameState :=
  mkState (snake s) (direction s) (nextDirection s) (food s) (score s) st (boardSize s).
Definition with_snake_score (s : GameState) (sn : list Position) (sc : Z) : GameState :=
  mkState sn (direction s) (nextDirection s) (food s) sc (status s) (boardSize s).
Definition with_snake_food_score (s : GameState) (sn : list Position) (f : Position)
  (sc : Z) : GameState :=
  mkState sn (direction s) (nextDirection s) f sc (status s) (boardSize s).

(** ** Constants (src/constants/game.ts) *)

Definition DEFAULT_BOARD_SIZE : Z := 20.
Definition POINTS_PER_FOOD : Z := 3.
Definition WINNING_SCORE : Z := 30.
Definition INITIAL_SNAKE_LENGTH : nat := 3.

(** ** Helpers of useSnakeGame.ts *)

(** Equality of positions as the code tests it: [a.x === b.x && a.y === b.y].
    The occupancy [Set] of [getRandomEmptyPosition] keys positions by the
    string ["x,y"], which is injective on integer coordinates, so
    [Set.has] is the same test. *)
Definition pos_eqb (a b : Position) : bool := (x a =? x b) && (y a =? y b).

Definition pos_eq_dec (a b : Position) : {a = b} + {a <> b}.
Proof. decide equality; apply Z.eq_dec. Defined.

(** [for (let i = 0; i < n; i++)] over a JS number bound, as a list of the
    values taken by [i]. *)
Definition zrange (n : Z) : list Z := map Z.of_nat (seq 0 (Z.to_nat n)).

(** [getInitialSnake]: [center = Math.floor(boardSize / 2)], segments
    [{x: center - i, y: center}] for [i < INITIAL_SNAKE_LENGTH]. *)
Definition getInitialSnake (bs : Z) : list Position :=
  let center := bs / 2 in
  map (fun i => mkPos (center - Z.of_nat i) center) (seq 0 INITIAL_SNAKE_LENGTH).

(** The randomness of [getRandomEmptyPosition]:
    [Math.floor(Math.random() * n)] is an index below [n] whenever [n > 0],
    because [Math.random()] lies in [0, 1). *)
Record RandomSource := mkRandom {
  pick : nat -> nat;
  pick_lt : forall n, (0 < n)%nat -> (pick n < n)%nat
}.

Definition occupiedb (sn : list Position) (p : Position) : bool :=
  existsb (pos_eqb p) sn.

(** The [available] array: x-major, then y, skipping occupied cells. *)
Definition available (bs : Z) (sn : list Position) : list Position :=
  flat_map (fun i =>
    filter (fun p => negb (occupiedb sn p)) (map (fun j => mkPos i j) (zrange bs)))
    (zrange bs).

(** [getRandomEmptyPosition]; [None] is the [throw new Error(...)].  The
    default of [nth] is never used since [pick] stays below the length. *)
Definition getRandomEmptyPosition (rs : RandomSource) (bs : Z) (sn : list Position)
  : option Position :=
  match available bs sn with
  | [] => None
  | (p0 :: _) as av => Some (nth (pick rs (length av)) av p0)
  end.

Definition getNextPosition (head : Position) (d : Direction) : Position :=
  match d with
  | UP => mkPos (x head) (y head - 1)
  | DOWN => mkPos (x head) (y head + 1)
  | LEFT => mkPos (x head - 1) (y head)
  | RIGHT => mkPos (x head + 1) (y head)
  end.

Definition isOppositeDirection (d1 d2 : Direction) : bool :=
  match d1, d2 with
  | UP, DOWN | DOWN, UP | LEFT, RIGHT | RIGHT, LEFT => true
  | _, _ => false
  end.

Definition status_eqb (a b : GameStatus) : bool :=
  match a, b with
  | NOT_STARTED, NOT_STARTED | PLAYING, PLAYING
  | GAME_OVER, GAME_OVER | WON, WON => true
  | _, _ => false
  end.

(** [prev.nextDirection || prev.direction] *)
Definition effectiveDirection (s : GameState) : Direction :=
  match nextDirection s with
  | Some d => d
  | None => direction s
  end.

(** ** The hook's operations *)

(** The [useState] initialiser: status [NOT_STARTED]. *)
Definition initialState (rs : RandomSource) (bs : Z) : option GameState :=
  let initialSnake := getInitialSnake bs in
  match getRandomEmptyPosition rs bs initialSnake with
  | None => None
  | Some f => Some (mkState initialSnake RIGHT None f 0 NOT_STARTED bs)
  end.

(** [startGame]: the new state does not depend on the previous one. *)
Definition startGame (rs : RandomSource) (bs : Z) : option GameState :=
  let initialSnake := getInitialSnake bs in
  match getRandomEmptyPosition rs bs initialSnake with
  | None => None
  | Some f => Some (mkState initialSnake RIGHT None f 0 PLAYING bs)
  end.

(** [changeDirection] (the updater passed to [setGameState]). *)
Definition changeDirection (newDirection : Direction) (prev : GameState) : GameState :=
  if negb (status_eqb (status prev) PLAYING) then prev
  else
    let lastDirection := effectiveDirection prev in
    if isOppositeDirection lastDirection newDirection then prev
    else with_nextDirection prev (Some newDirection).

(** The wall test of [moveSnake]: true when the position is outside. *)
Definition outOfBounds (bs : Z) (p : Position) : bool :=
  (x p <? 0) || (bs <=? x p) || (y p <? 0) || (bs <=? y p).

(** [moveSnake] (the updater passed to [setGameState]); [bs] is the hook's
    [boardSize] argument captured by the callback.  [None] is the
    [TypeError] of [prev.snake[0].x] on an empty snake. *)
Definition moveSnake (rs : RandomSource) (bs : Z) (prev : GameState) : option GameState :=
  if negb (status_eqb (status prev) PLAYING) then Some prev
  else
    let currentDirection := effectiveDirection prev in
    let newState := with_nextDirection (with_direction prev currentDirection) None in
    match snake prev with
    | [] => None
    | head :: _ =>
      let newHead := getNextPosition head currentDirection in
      if outOfBounds bs newHead then Some (with_status newState GAME_OVER)
      else
        let ateFood := (x newHead =? x (food prev)) && (y newHead =? y (food prev)) in
        let bodyToCheck := if ateFood then snake prev else removelast (snake prev) in
        let selfCollision :=
          existsb (fun segment => (x segment =? x newHead) && (y segment =? y newHead))
            bodyToCheck in
        if selfCollision then Some (with_status newState GAME_OVER)
        else
          let newSnake0 := newHead :: snake prev in
          let newSnake := if negb ateFood then removelast newSnake0 else newSnake0 in
          if ateFood then
            let newScore := score prev + POINTS_PER_FOOD in
            if WINNING_SCORE <=? newScore then
              Some (with_status (with_snake_score newState newSnake newScore) WON)
            else
              match getRandomEmptyPosition rs bs newSnake with
              | None => Some (with_status (with_snake_score newState newSnake newScore) WON)
              | Some newFood => Some (with_snake_food_score newState newSnake newFood newScore)
              end
          else Some (with_snake_food_score newState newSnake (food prev) (score prev))
    end.

(** A random source always picking the first available cell. *)
Definition rs0 : RandomSource.
Proof. refine (mkRandom (fun _ => 0%nat) _). intros n Hn. exact Hn. Defined.

(** States reachable in one session of a hook with board size [bs]. *)
Inductive reachable (bs : Z) : GameState -> Prop :=
| reach_init rs s : initialState rs bs = Some s -> reachable bs s
| reach_start rs s : startGame rs bs = Some s -> reachable bs s
| reach_tick rs s s' : reachable bs s -> moveSnake rs bs s = Some s' -> reachable bs s'
| reach_dir d s : reachable bs s -> reachable bs (changeDirection d s).

(** ** Keyboard input: [handleKeyPress] (useSnakeGame.ts, first [useEffect])

    [e.preventDefault()] only affects the browser; the state effect of a
    key event is the [changeDirection] updater for the four arrow keys and
    nothing for any other key. *)
Definition handleKeyPress (key : string) (s : GameState) : GameState :=
  if String.eqb key "ArrowUp" then changeDirection UP s
  else if String.eqb key "ArrowDown" then changeDirection DOWN s
  else if String.eqb key "ArrowLeft" then changeDirection LEFT s
  else if String.eqb key "ArrowRight" then changeDirection RIGHT s
  else s.

(** ** Rendering: [getCellClass] of the [SnakeGame] component

    The component compares the string keys ["x,y"].  On integer
    coordinates these keys are equal exactly when the positions are equal,
    and the empty [headKey] of an empty snake equals no key; so [headKey] is
    modelled as an optional position, [snakeSet.has] as [occupiedb] and the
    food key test as [pos_eqb]. *)
Definition baseClass : string := "w-5 h-5 border border-gray-200".

Definition headKey (s : GameState) : option Position :=
  match snake s with
  | [] => None
  | h :: _ => Some h
  end.

Definition headClass : string := String.append baseClass " bg-green-600".
Definition bodyClass : string := String.append baseClass " bg-green-500".
Definition foodClass : string := String.append baseClass " bg-blue-500".
Definition emptyClass : string := String.append baseClass " bg-white".

Definition getCellClass (s : GameState) (p : Position) : string :=
  if match headKey s with Some h => pos_eqb p h | None => false end then headClass
  else if occupiedb (snake s) p then bodyClass
  else if pos_eqb p (food s) then foodClass
  else emptyClass.

(** ** Geometry notions used by the statements *)

Definition adjacent (p q : Position) : Prop :=
  Z.abs (x p - x q) + Z.abs (y p - y q) = 1.

(** The cells the loops of [getRandomEmptyPosition] visit, before the
    occupancy filter. *)
Definition boardCells (bs : Z) : list Position :=
  flat_map (fun i => map (fun j => mkPos i j) (zrange bs)) (zrange bs).

(** Each segment is adjacent to its predecessor. *)
Fixpoint contiguous (l : list Position) : Prop :=
  match l with
  | a :: ((b :: _) as t) => adjacent a b /\ contiguous t
  | _ => True
  end.

(** ** Notions used by the statements *)

Definition inBounds (bs : Z) (p : Position) : Prop :=
  0 <= x p < bs /\ 0 <= y p < bs.

(** The state [moveSnake] builds before its checks: direction resolved,
    queue cleared. *)
Definition resolved (s : GameState) : GameState :=
  with_nextDirection (with_direction s (effectiveDirection s)) None.

Definition newHeadOf (s : GameState) (head : Position) : Position :=
  getNextPosition head (effectiveDirection s).

(** The validity invariant of a [PLAYING] state. *)
Definition valid (s : GameState) : Prop :=
  NoDup (snake s) /\ (1 <= length (snake s))%nat /\ ~ In (food s) (snake s).

(** Concrete states used below (spec section 8). *)
Definition stateA : GameState :=
  mkState [mkPos 4 2; mkPos 3 2] RIGHT None (mkPos 0 0) 0 PLAYING 5.

Definition stateB : GameState :=
  mkState (getInitialSnake 20) RIGHT None (mkPos 11 10) 0 PLAYING 20.

Definition stateC : GameState :=
  mkState (getInitialSnake 20) RIGHT None (mkPos 11 10) 27 PLAYING 20.

(** The state [startGame] builds on a 20 x 20 board when the first free
    cell is picked. *)
Definition stateStart : GameState :=
  mkState (getInitialSnake 20) RIGHT None (mkPos 0 0) 0 PLAYING 20.

(** A snake coiled so that moving [RIGHT] runs into its own body. *)
Definition stateCoil : GameState :=
  mkState [mkPos 1 1; mkPos 1 2; mkPos 2 2; mkPos 2 1; mkPos 2 0] RIGHT None
    (mkPos 0 0) 0 PLAYING 5.

(** ** Basic lemmas *)

Lemma pos_eqb_eq (a b : Position) : pos_eqb a b = true <-> a = b.
Proof.
  destruct a as [ax ay], b as [bx by0]; unfold pos_eqb; simpl.
  rewrite andb_true_iff, !Z.eqb_eq. split.
  - intros [-> ->]; reflexivity.
  - intros H; inversion H; auto.
Qed.

Lemma seg_test_eq (p seg : Position) :
  ((x seg =? x p) && (y seg =? y p))%bool = true <-> seg = p.
Proof. apply pos_eqb_eq. Qed.

Lemma existsb_seg_In (p : Position) (l : list Position) :
  existsb (fun seg => (x seg =? x p) && (y seg =? y p)) l = true <-> In p l.
Proof.
  rewrite existsb_exists. split.
  - intros [seg [Hin Heq]]. apply seg_test_eq in Heq. subst; exact Hin.
  - intros Hin. exists p. split; [exact Hin | apply seg_test_eq; reflexivity].
Qed.

Lemma occupiedb_In (sn : list Position) (p : Position) :
  occupiedb sn p = true <-> In p sn.
Proof.
  unfold occupiedb. rewrite existsb_exists. split.
  - intros [q [Hin Heq]]. apply pos_eqb_eq in Heq. subst; exact Hin.
  - intros Hin. exists p. split; [exact Hin | apply pos_eqb_eq; reflexivity].
Qed.

Lemma ate_food_eq (nh f : Position) :
  ((x nh =? x f) && (y nh =? y f))%bool = true <-> nh = f.
Proof. apply pos_eqb_eq. Qed.

Lemma In_zrange (n i : Z) : In i (zrange n) <-> 0 <= i < n.
Proof.
  unfold zrange. rewrite in_map_iff. split.
  - intros [k [<- Hk]]. apply in_seq in Hk. lia.
  - intros Hi. exists (Z.to_nat i). split; [lia |]. apply in_seq. lia.
Qed.

Lemma In_available (bs : Z) (sn : list Position) (p : Position) :
  In p (available bs sn) <-> inBounds bs p /\ ~ In p sn.
Proof.
  unfold available, inBounds. rewrite in_flat_map. split.
  - intros [i [Hi Hp]]. apply filter_In in Hp as [Hp Hocc].
    apply in_map_iff in Hp as [j [<- Hj]].
    apply In_zrange in Hi, Hj. simpl. split; [lia |].
    intros Hin. apply occupiedb_In in Hin. rewrite Hin in Hocc. discriminate.
  - intros [[Hx Hy] Hn]. exists (x p). split; [apply In_zrange; lia |].
    apply filter_In. split.
    + apply in_map_iff. exists (y p). split; [destruct p; reflexivity |].
      apply In_zrange; lia.
    + destruct (occupiedb sn p) eqn:E; [| reflexivity].
      apply occupiedb_In in E. contradiction.
Qed.

Lemma getRandomEmptyPosition_None (rs : RandomSource) (bs : Z) (sn : list Position) :
  getRandomEmptyPosition rs bs sn = None <-> available bs sn = [].
Proof.
  unfold getRandomEmptyPosition. destruct (available bs sn); split; congruence.
Qed.

Lemma getRandomEmptyPosition_Some (rs : RandomSource) (bs : Z) (sn : list Position)
  (p : Position) :
  getRandomEmptyPosition rs bs sn = Some p -> In p (available bs sn).
Proof.
  unfold getRandomEmptyPosition. destruct (available bs sn) as [| p0 av] eqn:E.
  - discriminate.
  - intros H. injection H as <-.
    change (In (nth (pick rs (length (p0 :: av))) (p0 :: av) p0) (p0 :: av)).
    apply nth_In. apply pick_lt. simpl; lia.
Qed.

Lemma available_nil_iff (bs : Z) (sn : list Position) :
  available bs sn = [] <-> (forall p, inBounds bs p -> In p sn).
Proof.
  split.
  - intros Hnil p Hp. destruct (in_dec pos_eq_dec p sn) as [H | H]; [exact H |].
    exfalso. assert (Hav : In p (available bs sn)) by (apply In_available; auto).
    rewrite Hnil in Hav. exact Hav.
  - intros Hall. destruct (available bs sn) as [| q av] eqn:E; [reflexivity |].
    exfalso. assert (Hq : In q (available bs sn)) by (rewrite E; left; reflexivity).
    apply In_available in Hq as [Hb Hn]. exact (Hn (Hall q Hb)).
Qed.

Lemma outOfBounds_false (bs : Z) (p : Position) :
  outOfBounds bs p = false <-> inBounds bs p.
Proof.
  unfold outOfBounds, inBounds. rewrite !orb_false_iff, !Z.ltb_ge, !Z.leb_gt. lia.
Qed.

Lemma outOfBounds_true (bs : Z) (p : Position) :
  outOfBounds bs p = true <-> ~ inBounds bs p.
Proof.
  rewrite <- outOfBounds_false. destruct (outOfBounds bs p); intuition congruence.
Qed.

Lemma length_removelast_cons {A} (a : A) (l : list A) :
  length (removelast (a :: l)) = length l.
Proof.
  revert a; induction l as [| b l IH]; intros a; [reflexivity |].
  change (removelast (a :: b :: l)) with (a :: removelast (b :: l)).
  cbn [length]. rewrite IH. reflexivity.
Qed.

Lemma In_removelast {A} (a : A) (l : list A) : In a (removelast l) -> In a l.
Proof.
  induction l as [| b l IH]; [intros [] |].
  destruct l as [| c l]; [intros [] |].
  change (removelast (b :: c :: l)) with (b :: removelast (c :: l)).
  intros [-> | H]; [left; reflexivity | right; apply IH; exact H].
Qed.

Lemma NoDup_removelast {A} (l : list A) : NoDup l -> NoDup (removelast l).
Proof.
  induction l as [| b l IH]; intros H; [constructor |].
  destruct l as [| c l]; [constructor |].
  change (removelast (b :: c :: l)) with (b :: removelast (c :: l)).
  inversion H as [| ? ? Hb Hl]; subst. constructor.
  - intros Hin. apply Hb. apply In_removelast. exact Hin.
  - apply IH. exact Hl.
Qed.

(** Unfold one [moveSnake] call on a [PLAYING] state with a head. *)
Ltac unfold_move s Hplay Hsn :=
  unfold moveSnake; rewrite Hplay; cbn [status_eqb negb]; rewrite Hsn;
  cbv zeta; fold (resolved s).

Lemma moveSnake_some (rs : RandomSource) (bs : Z) (s : GameState)
  (head : Position) (rest : list Position)
  (Hplay : status s = PLAYING) (Hsn : snake s = head :: rest) :
  exists s', moveSnake rs bs s = Some s'.
Proof.
  unfold_move s Hplay Hsn.
  repeat match goal with
  | |- context [if ?b then _ else _] => destruct b
  | |- context [match ?o with Some _ => _ | None => _ end] => destruct o
  end; eexists; reflexivity.
Qed.

(** [moveSnake] when the next head is in bounds, is the food, and is not
    on the snake. *)
Lemma moveSnake_eat (rs : RandomSource) (bs : Z) (s : GameState)
  (head : Position) (rest : list Position)
  (Hplay : status s = PLAYING) (Hsn : snake s = head :: rest)
  (Hin : inBounds bs (newHeadOf s head)) (Heat : newHeadOf s head = food s)
  (Hnc : ~ In (newHeadOf s head) (snake s)) :
  let nh := newHeadOf s head in
  let grown := with_snake_score (resolved s) (nh :: snake s) (score s + POINTS_PER_FOOD) in
  moveSnake rs bs s =
    if WINNING_SCORE <=? score s + POINTS_PER_FOOD then Some (with_status grown WON)
    else match getRandomEmptyPosition rs bs (nh :: snake s) with
         | None => Some (with_status grown WON)
         | Some f => Some (with_snake_food_score (resolved s) (nh :: snake s) f
                             (score s + POINTS_PER_FOOD))
         end.
Proof.
  cbv zeta. unfold newHeadOf in *.
  set (nh := getNextPosition head (effectiveDirection s)) in *.
  apply outOfBounds_false in Hin.
  assert (Eat : ((x nh =? x (food s)) && (y nh =? y (food s)))%bool = true)
    by (apply ate_food_eq; exact Heat).
  assert (Ec : existsb (fun segment =>
      ((x segment =? x nh) && (y segment =? y nh))%bool) (snake s) = false).
  { destruct (existsb _ _) eqn:Ec; [| reflexivity].
    apply existsb_seg_In in Ec. contradiction. }
  unfold_move s Hplay Hsn. fold nh. rewrite Hin, Eat, <- Hsn, Ec. reflexivity.
Qed.

(** [moveSnake] when the next head is in bounds, is not the food, and is
    not on the snake without its tail. *)
Lemma moveSnake_step (rs : RandomSource) (bs : Z) (s : GameState)
  (head : Position) (rest : list Position)
  (Hplay : status s = PLAYING) (Hsn : snake s = head :: rest)
  (Hin : inBounds bs (newHeadOf s head)) (Hneq : newHeadOf s head <> food s)
  (Hnc : ~ In (newHeadOf s head) (removelast (snake s))) :
  moveSnake rs bs s =
    Some (with_snake_food_score (resolved s)
            (removelast (newHeadOf s head :: snake s)) (food s) (score s)).
Proof.
  unfold newHeadOf in *.
  set (nh := getNextPosition head (effectiveDirection s)) in *.
  apply outOfBounds_false in Hin.
  assert (Eat : ((x nh =? x (food s)) && (y nh =? y (food s)))%bool = false).
  { destruct (_ && _)%bool eqn:E; [| reflexivity].
    apply ate_food_eq in E. contradiction. }
  assert (Ec : existsb (fun segment =>
      ((x segment =? x nh) && (y segment =? y nh))%bool) (removelast (snake s)) = false).
  { destruct (existsb _ _) eqn:Ec; [| reflexivity].
    apply existsb_seg_In in Ec. contradiction. }
  unfold_move s Hplay Hsn. fold nh. rewrite Hin, Eat, <- Hsn, Ec. reflexivity.
Qed.

(** Split conjunctions, disjunctions and existentials of a hypothesis
    until the result state is substituted, then close the goal. *)
Ltac destruct_conj H :=
  repeat match goal with
  | H : _ /\ _ |- _ => destruct H
  | H : _ \/ _ |- _ => destruct H
  | H : exists _, _ |- _ => destruct H
  end;
  subst; split; reflexivity.

(** Every result of [moveSnake] on a [PLAYING] state is one of its five
    [return]s. *)
Lemma moveSnake_outcomes (rs : RandomSource) (bs : Z) (s s' : GameState)
  (Hplay : status s = PLAYING) (H : moveSnake rs bs s = Some s') :
  s' = with_status (resolved s) GAME_OVER \/
  exists head rest, snake s = head :: rest /\
    let nh := newHeadOf s head in
    inBounds bs nh /\
    ((nh <> food s /\ ~ In nh (removelast (snake s)) /\
      s' = with_snake_food_score (resolved s) (removelast (nh :: snake s)) (food s) (score s))
     \/ (nh = food s /\ ~ In nh (snake s) /\
      ((WINNING_SCORE <= score s + POINTS_PER_FOOD /\
        s' = with_status (with_snake_score (resolved s) (nh :: snake s)
               (score s + POINTS_PER_FOOD)) WON)
       \/ (score s + POINTS_PER_FOOD < WINNING_SCORE /\
           getRandomEmptyPosition rs bs (nh :: snake s) = None /\
           s' = with_status (with_snake_score (resolved s) (nh :: snake s)
                  (score s + POINTS_PER_FOOD)) WON)
       \/ (score s + POINTS_PER_FOOD < WINNING_SCORE /\
           exists f, getRandomEmptyPosition rs bs (nh :: snake s) = Some f /\
           s' = with_snake_food_score (resolved s) (nh :: snake s) f
                  (score s + POINTS_PER_FOOD))))).
Proof.
  unfold moveSnake in H. rewrite Hplay in H. cbn [status_eqb negb] in H.
  fold (resolved s) in H.
  destruct (snake s) as [| head rest] eqn:Hsn; [discriminate |].
  cbv zeta in H. rewrite <- Hsn in H. rewrite <- Hsn. unfold newHeadOf.
  set (nh := getNextPosition head (effectiveDirection s)) in *.
  destruct (outOfBounds bs nh) eqn:Eo.
  { left. injection H as <-. reflexivity. }
  apply outOfBounds_false in Eo.
  destruct ((x nh =? x (food s)) && (y nh =? y (food s)))%bool eqn:Eat.
  - apply ate_food_eq in Eat.
    destruct (existsb _ (snake s)) eqn:Ec.
    { left. injection H as <-. reflexivity. }
    right. exists head, rest. split; [exact Hsn |]. split; [exact Eo |].
    right. split; [exact Eat |]. split.
    { intros Hin. apply existsb_seg_In in Hin. fold nh in Hin. congruence. }
    cbv [negb] in H.
    destruct (WINNING_SCORE <=? score s + POINTS_PER_FOOD) eqn:Ew.
    + left. apply Z.leb_le in Ew. injection H as <-. auto.
    + apply Z.leb_gt in Ew. right.
      destruct (getRandomEmptyPosition rs bs (nh :: snake s)) as [f |] eqn:Er.
      * right. injection H as <-. split; [exact Ew |]. exists f. auto.
      * left. injection H as <-. auto.
  - assert (Hneq : nh <> food s).
    { intros E. apply ate_food_eq in E. congruence. }
    destruct (existsb _ (removelast (snake s))) eqn:Ec.
    { left. injection H as <-. reflexivity. }
    right. exists head, rest. split; [exact Hsn |]. split; [exact Eo |].
    left. split; [exact Hneq |]. split.
    { intros Hin. apply existsb_seg_In in Hin. fold nh in Hin. congruence. }
    injection H as <-. reflexivity.
Qed.

Lemma moveSnake_not_playing (rs : RandomSource) (bs : Z) (s : GameState)
  (Hnp : status s <> PLAYING) : moveSnake rs bs s = Some s.
Proof.
  unfold moveSnake. destruct (status s); [reflexivity | contradiction | reflexivity ..].
Qed.

Lemma changeDirection_fields (d : Direction) (s : GameState) :
  snake (changeDirection d s) = snake s /\ food (changeDirection d s) = food s /\
  score (changeDirection d s) = score s /\ status (changeDirection d s) = status s.
Proof.
  unfold changeDirection.
  destruct (negb _); [| destruct (isOppositeDirection _ _)]; repeat split.
Qed.

Lemma getInitialSnake_NoDup (bs : Z) : NoDup (getInitialSnake bs).
Proof.
  unfold getInitialSnake. cbn.
  repeat constructor; cbn; intros H; repeat destruct H as [H | H];
    try injection H; try lia; exact H.
Qed.

Lemma getInitialSnake_length (bs : Z) : length (getInitialSnake bs) = INITIAL_SNAKE_LENGTH.
Proof. reflexivity. Qed.

Lemma getRandomEmptyPosition_free (rs : RandomSource) (bs : Z) (sn : list Position)
  (p : Position) :
  getRandomEmptyPosition rs bs sn = Some p -> inBounds bs p /\ ~ In p sn.
Proof.
  intros H. apply In_available. apply (getRandomEmptyPosition_Some rs). exact H.
Qed.

Lemma startGame_valid (rs : RandomSource) (bs : Z) (s : GameState) :
  startGame rs bs = Some s -> valid s.
Proof.
  unfold startGame. destruct (getRandomEmptyPosition rs bs _) as [f |] eqn:E;
    [| discriminate].
  intros H. injection H as <-. apply getRandomEmptyPosition_free in E.
  split; [apply getInitialSnake_NoDup |]. split; [cbn; lia |]. apply E.
Qed.

Lemma moveSnake_preserves_valid (rs : RandomSource) (bs : Z) (s s' : GameState)
  (Hplay : status s = PLAYING) (Hv : valid s) (Hm : moveSnake rs bs s = Some s')
  (Hplay' : status s' = PLAYING) : valid s'.
Proof.
  destruct Hv as [Hnd [_ Hfood]].
  destruct (moveSnake_outcomes rs bs s s' Hplay Hm) as [-> | [h [r [Hsn [Hin Hc]]]]].
  { discriminate. }
  cbv zeta in Hc. set (nh := newHeadOf s h) in *.
  destruct Hc as [[Hneq [Hnc ->]] | [Heat [Hnc [[_ ->] | [[_ [_ ->]] | [_ [f [Hf ->]]]]]]]];
    try discriminate; unfold valid; cbn [snake food with_snake_food_score].
  - rewrite Hsn in *. change (removelast (nh :: h :: r)) with (nh :: removelast (h :: r)).
    split; [constructor; [exact Hnc | apply NoDup_removelast; exact Hnd] |].
    split; [cbn; lia |].
    intros [E | E]; [congruence |]. apply Hfood. apply In_removelast. exact E.
  - split; [constructor; assumption |]. split; [cbn; lia |].
    apply getRandomEmptyPosition_free in Hf. apply Hf.
Qed.

(** ** Claims *)

(** C1. Wall check.  In a [PLAYING] state whose next head (in the
    effective direction) is outside [[0, boardSize)] on either axis, [tick]
    yields [GAME_OVER] with snake, score and food unchanged; whatever the
    food and the body are, the wall outcome is taken first. *)
Theorem moveSnake_wall_game_over (rs : RandomSource) (bs : Z) (s : GameState)
  (head : Position) (rest : list Position)
  (Hplay : status s = PLAYING) (Hsn : snake s = head :: rest)
  (Hout : ~ inBounds bs (newHeadOf s head)) :
  moveSnake rs bs s = Some (with_status (resolved s) GAME_OVER) /\
  (exists s', moveSnake rs bs s = Some s' /\ status s' = GAME_OVER /\
     snake s' = snake s /\ score s' = score s /\ food s' = food s).
Proof.
  assert (Hmove : moveSnake rs bs s = Some (with_status (resolved s) GAME_OVER)).
  { unfold_move s Hplay Hsn. apply outOfBounds_true in Hout.
    unfold newHeadOf in Hout. rewrite Hout. reflexivity. }
  split; [exact Hmove |].
  eexists; split; [exact Hmove |]. repeat split.
Qed.

(** C2. Self-collision.  For a [PLAYING] state whose next head is in
    bounds, the body tested is the whole snake when the next head is the
    food and the snake without its tail otherwise.  If the next head is in
    that body, [tick] yields [GAME_OVER] with snake, score and food not
    mutated; if not, the result is not [GAME_OVER]. *)
Theorem moveSnake_self_collision (rs : RandomSource) (bs : Z) (s : GameState)
  (head : Position) (rest : list Position)
  (Hplay : status s = PLAYING) (Hsn : snake s = head :: rest)
  (Hin : inBounds bs (newHeadOf s head)) :
  let nh := newHeadOf s head in
  let bodyToCheck :=
    if pos_eq_dec nh (food s) then snake s else removelast (snake s) in
  (In nh bodyToCheck ->
     moveSnake rs bs s = Some (with_status (resolved s) GAME_OVER) /\
     exists s', moveSnake rs bs s = Some s' /\ status s' = GAME_OVER /\
       snake s' = snake s /\ score s' = score s /\ food s' = food s) /\
  (~ In nh bodyToCheck ->
     exists s', moveSnake rs bs s = Some s' /\ status s' <> GAME_OVER).
Proof.
  cbv zeta. unfold newHeadOf in *.
  set (nh := getNextPosition head (effectiveDirection s)) in *.
  apply outOfBounds_false in Hin.
  destruct (pos_eq_dec nh (food s)) as [Heq | Hneq].
  - assert (Eat : ((x nh =? x (food s)) && (y nh =? y (food s)))%bool = true)
      by (apply ate_food_eq; exact Heq).
    split.
    + intros Hcol. apply existsb_seg_In in Hcol.
      assert (Hm : moveSnake rs bs s = Some (with_status (resolved s) GAME_OVER)).
      { unfold_move s Hplay Hsn. fold nh. rewrite Hin, Eat, <- Hsn, Hcol. reflexivity. }
      split; [exact Hm |]. eexists; split; [exact Hm |]. repeat split.
    + intros Hcol. assert (Ec : existsb (fun segment =>
          ((x segment =? x nh) && (y segment =? y nh))%bool) (snake s) = false).
      { destruct (existsb _ _) eqn:Ec; [| reflexivity].
        apply existsb_seg_In in Ec. contradiction. }
      destruct (WINNING_SCORE <=? score s + POINTS_PER_FOOD) eqn:Ew.
      * eexists; split.
        { unfold_move s Hplay Hsn. fold nh. rewrite Hin, Eat, <- Hsn, Ec.
          cbv [negb]. rewrite Ew. reflexivity. }
        discriminate.
      * destruct (getRandomEmptyPosition rs bs (nh :: snake s)) as [f |] eqn:Er.
        -- eexists; split.
           { unfold_move s Hplay Hsn. fold nh. rewrite Hin, Eat, <- Hsn, Ec.
             cbv [negb]. rewrite Ew, Er. reflexivity. }
           cbn. rewrite Hplay. discriminate.
        -- eexists; split.
           { unfold_move s Hplay Hsn. fold nh. rewrite Hin, Eat, <- Hsn, Ec.
             cbv [negb]. rewrite Ew, Er. reflexivity. }
           discriminate.
  - assert (Eat : ((x nh =? x (food s)) && (y nh =? y (food s)))%bool = false).
    { destruct (_ && _)%bool eqn:E; [| reflexivity].
      apply ate_food_eq in E. contradiction. }
    split.
    + intros Hcol. apply existsb_seg_In in Hcol.
      assert (Hm : moveSnake rs bs s = Some (with_status (resolved s) GAME_OVER)).
      { unfold_move s Hplay Hsn. fold nh. rewrite Hin, Eat, <- Hsn, Hcol. reflexivity. }
      split; [exact Hm |]. eexists; split; [exact Hm |]. repeat split.
    + intros Hcol. assert (Ec : existsb (fun segment =>
          ((x segment =? x nh) && (y segment =? y nh))%bool) (removelast (snake s)) = false).
      { destruct (existsb _ _) eqn:Ec; [| reflexivity].
        apply existsb_seg_In in Ec. contradiction. }
      eexists; split.
      { unfold_move s Hplay Hsn. fold nh. rewrite Hin, Eat, <- Hsn, Ec. reflexivity. }
      cbn. rewrite Hplay. discriminate.
Qed.

(** C3. Growth law.  In a [PLAYING] state, a tick whose in-bounds,
    non-colliding next head is the food yields the snake with the next head
    prepended and the tail kept (one segment longer) and the score raised
    by [POINTS_PER_FOOD]; a tick that does not eat keeps the snake length
    and the score. *)
Theorem moveSnake_growth (rs : RandomSource) (bs : Z) (s : GameState)
  (head : Position) (rest : list Position)
  (Hplay : status s = PLAYING) (Hsn : snake s = head :: rest) :
  let nh := newHeadOf s head in
  ((inBounds bs nh /\ nh = food s /\ ~ In nh (snake s)) ->
     exists s', moveSnake rs bs s = Some s' /\ snake s' = nh :: snake s /\
       length (snake s') = S (length (snake s)) /\
       score s' = score s + POINTS_PER_FOOD) /\
  (~ (inBounds bs nh /\ nh = food s /\ ~ In nh (snake s)) ->
     exists s', moveSnake rs bs s = Some s' /\
       length (snake s') = length (snake s) /\ score s' = score s).
Proof.
  cbv zeta. split.
  - intros [Hin [Heat Hnc]].
    pose proof (moveSnake_eat rs bs s head rest Hplay Hsn Hin Heat Hnc) as Hm.
    cbv zeta in Hm.
    destruct (WINNING_SCORE <=? score s + POINTS_PER_FOOD);
      [| destruct (getRandomEmptyPosition rs bs _)];
      eexists; (split; [exact Hm |]); repeat split.
  - intros Hnot. destruct (moveSnake_some rs bs s head rest Hplay Hsn) as [s' Hm].
    exists s'. split; [exact Hm |].
    destruct (moveSnake_outcomes rs bs s s' Hplay Hm)
      as [-> | [h [r [Hsn' [Hin Hcase]]]]].
    + split; reflexivity.
    + rewrite Hsn in Hsn'. injection Hsn' as <- <-.
      destruct Hcase as [[Hneq [Hnc ->]] | [Heat [Hnc _]]].
      * cbn [snake score with_snake_food_score]. rewrite Hsn.
        rewrite length_removelast_cons. split; reflexivity.
      * exfalso. apply Hnot. auto.
Qed.

(** C4. Win law.  In a [PLAYING] state, a food-eating tick whose new score
    [score + POINTS_PER_FOOD] reaches [WINNING_SCORE] yields [WON] with score
    exactly [score + POINTS_PER_FOOD], the grown snake, and the food left
    as it was. *)
Theorem moveSnake_win (rs : RandomSource) (bs : Z) (s : GameState)
  (head : Position) (rest : list Position)
  (Hplay : status s = PLAYING) (Hsn : snake s = head :: rest)
  (Hin : inBounds bs (newHeadOf s head)) (Heat : newHeadOf s head = food s)
  (Hnc : ~ In (newHeadOf s head) (snake s))
  (Hwin : WINNING_SCORE <= score s + POINTS_PER_FOOD) :
  exists s', moveSnake rs bs s = Some s' /\ status s' = WON /\
    score s' = score s + POINTS_PER_FOOD /\ food s' = food s /\
    snake s' = newHeadOf s head :: snake s.
Proof.
  pose proof (moveSnake_eat rs bs s head rest Hplay Hsn Hin Heat Hnc) as Hm.
  cbv zeta in Hm. apply Z.leb_le in Hwin. rewrite Hwin in Hm.
  eexists; split; [exact Hm |]. repeat split.
Qed.

(** C5. Direction-reversal law.  A request for a direction opposite to the
    reference direction (the queued one if any, else the active one)
    returns the state unchanged, so [nextDirection] does not change; and
    once a request has been accepted, a request opposite to it in the same
    tick window is rejected. *)
Theorem changeDirection_reversal (s : GameState) (d : Direction)
  (Hopp : isOppositeDirection (effectiveDirection s) d = true) :
  changeDirection d s = s /\
  nextDirection (changeDirection d s) = nextDirection s /\
  (forall (s1 : GameState) (d1 : Direction),
     status s1 = PLAYING -> isOppositeDirection (effectiveDirection s1) d1 = false ->
     isOppositeDirection d1 d = true ->
     changeDirection d (changeDirection d1 s1) = changeDirection d1 s1).
Proof.
  assert (Hs : changeDirection d s = s).
  { unfold changeDirection. rewrite Hopp.
    destruct (negb (status_eqb (status s) PLAYING)); reflexivity. }
  split; [exact Hs |]. split; [rewrite Hs; reflexivity |].
  intros s1 d1 Hp1 Hacc Hopp1.
  assert (H1 : changeDirection d1 s1 = with_nextDirection s1 (Some d1)).
  { unfold changeDirection. rewrite Hp1, Hacc. reflexivity. }
  rewrite H1. unfold changeDirection.
  change (effectiveDirection (with_nextDirection s1 (Some d1))) with d1.
  change (status (with_nextDirection s1 (Some d1))) with (status s1).
  rewrite Hp1, Hopp1. reflexivity.
Qed.

(** C6. Queuing law.  In a [PLAYING] state, an accepted request only sets
    [nextDirection]; the next tick makes the queued direction active and
    clears [nextDirection].  Every tick of a [PLAYING] state, whatever its
    outcome, activates the effective direction and clears the queue. *)
Theorem changeDirection_queue (rs : RandomSource) (bs : Z) (s : GameState)
  (d : Direction) (head : Position) (rest : list Position)
  (Hplay : status s = PLAYING) (Hsn : snake s = head :: rest)
  (Hacc : isOppositeDirection (effectiveDirection s) d = false) :
  changeDirection d s = mkState (snake s) (direction s) (Some d) (food s) (score s)
                          (status s) (boardSize s) /\
  (exists s2, moveSnake rs bs (changeDirection d s) = Some s2 /\
     direction s2 = d /\ nextDirection s2 = None) /\
  (forall (t t' : GameState), status t = PLAYING -> moveSnake rs bs t = Some t' ->
     direction t' = effectiveDirection t /\ nextDirection t' = None).
Proof.
  assert (Hq : forall (t t' : GameState), status t = PLAYING -> moveSnake rs bs t = Some t' ->
     direction t' = effectiveDirection t /\ nextDirection t' = None).
  { intros t t' Hp Hm.
    destruct (moveSnake_outcomes rs bs t t' Hp Hm) as [-> | [h [r [_ Hc]]]];
      [split; reflexivity |].
    cbv zeta in Hc. destruct_conj Hc. }
  assert (Hc : changeDirection d s = mkState (snake s) (direction s) (Some d) (food s)
                 (score s) (status s) (boardSize s)).
  { unfold changeDirection. rewrite Hacc. rewrite Hplay at 1. reflexivity. }
  split; [exact Hc |]. split; [| exact Hq].
  assert (Hp1 : status (changeDirection d s) = PLAYING) by (rewrite Hc; exact Hplay).
  assert (Hs1 : snake (changeDirection d s) = head :: rest) by (rewrite Hc; exact Hsn).
  destruct (moveSnake_some rs bs _ head rest Hp1 Hs1) as [s2 Hm].
  exists s2. split; [exact Hm |].
  destruct (Hq _ _ Hp1 Hm) as [Hd Hn]. rewrite Hd, Hc. split; [reflexivity | exact Hn].
Qed.

(** C7. Board-full handling.  The empty-cell selector fails exactly when
    every cell of the [boardSize] x [boardSize] grid is on the snake, and
    otherwise returns an in-grid cell not on the snake.  When it fails
    while respawning food inside [tick], the tick returns (no error) a [WON]
    state with the moved, grown snake and the raised score. *)
Theorem getRandomEmptyPosition_board_full (rs : RandomSource) (bs : Z) :
  (forall sn, getRandomEmptyPosition rs bs sn = None <->
              (forall p, inBounds bs p -> In p sn)) /\
  (forall sn p, getRandomEmptyPosition rs bs sn = Some p -> inBounds bs p /\ ~ In p sn) /\
  (forall s head rest, status s = PLAYING -> snake s = head :: rest ->
     let nh := newHeadOf s head in
     inBounds bs nh -> nh = food s -> ~ In nh (snake s) ->
     score s + POINTS_PER_FOOD < WINNING_SCORE ->
     getRandomEmptyPosition rs bs (nh :: snake s) = None ->
     moveSnake rs bs s =
       Some (with_status (with_snake_score (resolved s) (nh :: snake s)
               (score s + POINTS_PER_FOOD)) WON)).
Proof.
  split; [| split].
  - intros sn. rewrite getRandomEmptyPosition_None. apply available_nil_iff.
  - intros sn p. apply getRandomEmptyPosition_free.
  - intros s head rest Hplay Hsn. cbv zeta. intros Hin Heat Hnc Hlt Hnone.
    rewrite (moveSnake_eat rs bs s head rest Hplay Hsn Hin Heat Hnc). cbv zeta.
    apply Z.leb_gt in Hlt. rewrite Hlt, Hnone. reflexivity.
Qed.

(** C8. Validity invariant.  Every [PLAYING] state reachable in a session
    has pairwise distinct snake positions, at least one segment, and food
    off the snake; [startGame] establishes it, and [tick] (into a [PLAYING]
    state) and [changeDirection] preserve it. *)
Theorem reachable_playing_valid (bs : Z) :
  (forall s, reachable bs s -> status s = PLAYING -> valid s) /\
  (forall rs s, startGame rs bs = Some s -> valid s) /\
  (forall rs s s', status s = PLAYING -> valid s -> moveSnake rs bs s = Some s' ->
     status s' = PLAYING -> valid s') /\
  (forall d s, valid s -> valid (changeDirection d s)).
Proof.
  assert (Hdir : forall d s, valid s -> valid (changeDirection d s)).
  { intros d s Hv. destruct (changeDirection_fields d s) as [Hs [Hf _]].
    unfold valid. rewrite Hs, Hf. exact Hv. }
  split; [| split; [exact (fun rs => startGame_valid rs bs) | split; [| exact Hdir]]].
  - intros s Hr. induction Hr as [rs s H | rs s H | rs s s' Hr IH Hm | d s Hr IH].
    + unfold initialState in H. destruct (getRandomEmptyPosition rs bs _);
        [| discriminate]. injection H as <-. discriminate.
    + intros _. exact (startGame_valid rs bs s H).
    + intros Hp'. destruct (status s) eqn:Es.
      * rewrite (moveSnake_not_playing rs bs s) in Hm by congruence.
        injection Hm as <-. congruence.
      * exact (moveSnake_preserves_valid rs bs s s' Es (IH eq_refl) Hm Hp').
      * rewrite (moveSnake_not_playing rs bs s) in Hm by congruence.
        injection Hm as <-. congruence.
      * rewrite (moveSnake_not_playing rs bs s) in Hm by congruence.
        injection Hm as <-. congruence.
    + intros Hp. destruct (changeDirection_fields d s) as [_ [_ [_ Hst]]].
      apply Hdir. apply IH. congruence.
  - exact (fun rs => moveSnake_preserves_valid rs bs).
Qed.

(** C9 (as stated: refuted).  With [boardSize = 2 < INITIAL_SNAKE_LENGTH]
    both the hook initialiser and [startGame] succeed, and the initial
    snake has the out-of-bounds segment (-1, 1). *)
Lemma small_board_not_rejected :
  (2 < Z.of_nat INITIAL_SNAKE_LENGTH) /\
  (exists s, initialState rs0 2 = Some s /\ In (mkPos (-1) 1) (snake s)) /\
  (exists s, startGame rs0 2 = Some s /\ In (mkPos (-1) 1) (snake s)) /\
  ~ inBounds 2 (mkPos (-1) 1).
Proof.
  split; [cbn; lia |]. split; [| split].
  - eexists; split; [vm_compute; reflexivity |]. cbn; auto.
  - eexists; split; [vm_compute; reflexivity |]. cbn; auto.
  - unfold inBounds; cbn; lia.
Qed.

(** C9 (amended).  Construction does not compare [boardSize] with
    [INITIAL_SNAKE_LENGTH]: it fails only when no in-grid cell is free of
    the initial snake (the selector's error), and otherwise builds the
    state around [getInitialSnake boardSize] as it is. *)
Theorem construction_no_size_check (rs : RandomSource) (bs : Z) :
  (initialState rs bs = None <-> (forall p, inBounds bs p -> In p (getInitialSnake bs))) /\
  (startGame rs bs = None <-> (forall p, inBounds bs p -> In p (getInitialSnake bs))) /\
  (forall s, initialState rs bs = Some s -> snake s = getInitialSnake bs) /\
  (forall s, startGame rs bs = Some s -> snake s = getInitialSnake bs).
Proof.
  rewrite <- available_nil_iff, <- (getRandomEmptyPosition_None rs).
  unfold initialState, startGame.
  destruct (getRandomEmptyPosition rs bs (getInitialSnake bs)).
  - repeat split; try discriminate; intros s' H; injection H as <-; reflexivity.
  - repeat split; try discriminate; reflexivity.
Qed.

(** C10. Score-length coupling.  In every reachable state the score is
    [POINTS_PER_FOOD * (length snake - INITIAL_SNAKE_LENGTH)], the snake is
    at least [INITIAL_SNAKE_LENGTH] long, and the score is non-negative. *)
Theorem reachable_score_length (bs : Z) (s : GameState) (Hr : reachable bs s) :
  score s = POINTS_PER_FOOD * (Z.of_nat (length (snake s)) - Z.of_nat INITIAL_SNAKE_LENGTH) /\
  (INITIAL_SNAKE_LENGTH <= length (snake s))%nat /\
  0 <= score s.
Proof.
  enough (H : score s = POINTS_PER_FOOD *
                (Z.of_nat (length (snake s)) - Z.of_nat INITIAL_SNAKE_LENGTH) /\
              (INITIAL_SNAKE_LENGTH <= length (snake s))%nat).
  { destruct H as [H1 H2]. split; [exact H1 | split; [exact H2 |]].
    rewrite H1. unfold POINTS_PER_FOOD. lia. }
  induction Hr as [rs s H | rs s H | rs s s' Hr IH Hm | d s Hr IH].
  - unfold initialState in H. destruct (getRandomEmptyPosition rs bs _);
      [| discriminate]. injection H as <-. split; reflexivity.
  - unfold startGame in H. destruct (getRandomEmptyPosition rs bs _);
      [| discriminate]. injection H as <-. split; reflexivity.
  - destruct (status s) eqn:Es.
    1, 3, 4: rewrite (moveSnake_not_playing rs bs s) in Hm by congruence;
      injection Hm as <-; exact IH.
    destruct (moveSnake_outcomes rs bs s s' Es Hm) as [-> | [h [r [Hsn [_ Hc]]]]].
    { exact IH. }
    cbv zeta in Hc. set (nh := newHeadOf s h) in *.
    destruct IH as [IH1 IH2].
    destruct Hc as [[_ [_ ->]] | [_ [_ [[_ ->] | [[_ [_ ->]] | [_ [f [_ ->]]]]]]]];
      cbn [snake score with_snake_food_score with_status with_snake_score];
      rewrite ?Hsn, ?length_removelast_cons in *;
      cbn [length] in *; split; lia.
  - destruct (changeDirection_fields d s) as [Hs [_ [Hsc _]]].
    rewrite Hs, Hsc. exact IH.
Qed.

(** ** Witnesses and concrete scenarios *)

Example scenario_A :
  option_map status
    (moveSnake rs0 5 stateA)
  = Some GAME_OVER.
Proof. vm_compute. reflexivity. Qed.

Example scenario_B :
  option_map (fun s => (score s, length (snake s), status s, food s))
    (moveSnake rs0 20 stateB)
  = Some (3, 4%nat, PLAYING, mkPos 0 0).
Proof. vm_compute. reflexivity. Qed.

Example scenario_C :
  option_map (fun s => (status s, score s)) (moveSnake rs0 20 stateC) = Some (WON, 30).
Proof. vm_compute. reflexivity. Qed.

Example scenario_D :
  option_map status
    (moveSnake rs0 5
       (changeDirection UP (mkState [mkPos 2 0; mkPos 2 1] RIGHT None (mkPos 4 4) 0 PLAYING 5)))
  = Some GAME_OVER.
Proof. vm_compute. reflexivity. Qed.

Lemma moveSnake_wall_game_over_witness :
  ~ inBounds 5 (newHeadOf stateA (mkPos 4 2)) /\
  moveSnake rs0 5 stateA = Some (with_status (resolved stateA) GAME_OVER).
Proof.
  assert (Hout : ~ inBounds 5 (newHeadOf stateA (mkPos 4 2))) by (unfold inBounds; cbn; lia).
  split; [exact Hout |].
  exact (proj1 (moveSnake_wall_game_over rs0 5 stateA (mkPos 4 2) [mkPos 3 2]
                  eq_refl eq_refl Hout)).
Defined.

Lemma moveSnake_self_collision_witness :
  inBounds 5 (newHeadOf stateCoil (mkPos 1 1)) /\
  moveSnake rs0 5 stateCoil = Some (with_status (resolved stateCoil) GAME_OVER).
Proof.
  assert (Hin : inBounds 5 (newHeadOf stateCoil (mkPos 1 1))) by (unfold inBounds; cbn; lia).
  split; [exact Hin |].
  apply (proj1 (moveSnake_self_collision rs0 5 stateCoil (mkPos 1 1)
                  [mkPos 1 2; mkPos 2 2; mkPos 2 1; mkPos 2 0] eq_refl eq_refl Hin)).
  apply (proj1 (existsb_seg_In _ _)). vm_compute. reflexivity.
Defined.

Lemma moveSnake_growth_witness :
  exists s', moveSnake rs0 20 stateB = Some s' /\
    snake s' = mkPos 11 10 :: snake stateB /\
    length (snake s') = S (length (snake stateB)) /\
    score s' = score stateB + POINTS_PER_FOOD.
Proof.
  apply (proj1 (moveSnake_growth rs0 20 stateB (mkPos 10 10) [mkPos 9 10; mkPos 8 10]
                  eq_refl eq_refl)).
  split; [unfold inBounds; cbn; lia |]. split; [reflexivity |].
  intros H. apply existsb_seg_In in H. vm_compute in H. discriminate.
Defined.

Lemma moveSnake_win_witness :
  exists s', moveSnake rs0 20 stateC = Some s' /\ status s' = WON /\
    score s' = 30 /\ food s' = food stateC /\
    snake s' = mkPos 11 10 :: snake stateC.
Proof.
  refine (moveSnake_win rs0 20 stateC (mkPos 10 10) [mkPos 9 10; mkPos 8 10]
            eq_refl eq_refl _ eq_refl _ _).
  - unfold inBounds; cbn; lia.
  - intros H. apply existsb_seg_In in H. vm_compute in H. discriminate.
  - unfold WINNING_SCORE, POINTS_PER_FOOD; cbn; lia.
Defined.

Lemma changeDirection_reversal_witness :
  isOppositeDirection (effectiveDirection stateB) LEFT = true /\
  changeDirection LEFT stateB = stateB.
Proof.
  split; [reflexivity |].
  exact (proj1 (changeDirection_reversal stateB LEFT eq_refl)).
Defined.

Lemma changeDirection_queue_witness :
  isOppositeDirection (effectiveDirection stateB) UP = false /\
  exists s2, moveSnake rs0 20 (changeDirection UP stateB) = Some s2 /\
    direction s2 = UP /\ nextDirection s2 = None.
Proof.
  split; [reflexivity |].
  exact (proj1 (proj2 (changeDirection_queue rs0 20 stateB UP (mkPos 10 10)
                         [mkPos 9 10; mkPos 8 10] eq_refl eq_refl eq_refl))).
Defined.

Lemma reachable_score_length_witness :
  reachable 20 stateStart /\ score stateStart = 0 /\
  (exists s', moveSnake rs0 20 stateStart = Some s' /\ reachable 20 s' /\
     score s' = POINTS_PER_FOOD * (Z.of_nat (length (snake s')) - 3)).
Proof.
  assert (Hr : reachable 20 stateStart).
  { apply (reach_start 20 rs0). vm_compute. reflexivity. }
  split; [exact Hr |].
  split; [exact (proj1 (reachable_score_length 20 stateStart Hr)) |].
  destruct (moveSnake rs0 20 stateStart) as [s' |] eqn:Hm; [| discriminate].
  exists s'. assert (Hr' : reachable 20 s') by exact (reach_tick 20 rs0 _ _ Hr Hm).
  split; [reflexivity |]. split; [exact Hr' |].
  exact (proj1 (reachable_score_length 20 s' Hr')).
Defined.

(** ** Further properties of the code *)

(** X1. Outside [PLAYING] the tick, the direction updater and every key
    event leave the state exactly as it is. *)
Theorem not_playing_frozen (rs : RandomSource) (bs : Z) (s : GameState)
  (Hnp : status s <> PLAYING) :
  moveSnake rs bs s = Some s /\
  (forall d, changeDirection d s = s) /\
  (forall key, handleKeyPress key s = s).
Proof.
  assert (Hd : forall d, changeDirection d s = s).
  { intros d. unfold changeDirection.
    destruct (status s); [reflexivity | contradiction | reflexivity ..]. }
  split; [exact (moveSnake_not_playing rs bs s Hnp) |]. split; [exact Hd |].
  intros key. unfold handleKeyPress. rewrite !Hd.
  repeat match goal with |- context [if ?b then _ else _] => destruct b end;
    reflexivity.
Qed.

(** X2. [moveSnake] throws exactly on a [PLAYING] state with an empty snake
    (the [TypeError] of reading [prev.snake[0].x]); every other state gets
    a result. *)
Theorem moveSnake_throws_iff (rs : RandomSource) (bs : Z) (s : GameState) :
  moveSnake rs bs s = None <-> status s = PLAYING /\ snake s = [].
Proof.
  destruct (status s) eqn:Es.
  1, 3, 4: rewrite (moveSnake_not_playing rs bs s) by congruence;
    split; [discriminate | intros [H _]; discriminate].
  destruct (snake s) as [| h r] eqn:Hsn.
  - split; [intros _; split; reflexivity |]. intros _.
    unfold moveSnake. rewrite Es, Hsn. reflexivity.
  - destruct (moveSnake_some rs bs s h r Es Hsn) as [s' Hm]. rewrite Hm.
    split; [discriminate | intros [_ H]; discriminate].
Qed.

(** X3. Direction algebra: [isOppositeDirection] is symmetric and
    irreflexive, each direction has exactly one opposite, a step followed
    by a step in the opposite direction returns to the start, and every
    step moves to an adjacent cell. *)
Theorem direction_algebra :
  (forall d1 d2, isOppositeDirection d1 d2 = isOppositeDirection d2 d1) /\
  (forall d, isOppositeDirection d d = false) /\
  (forall d, exists! d', isOppositeDirection d d' = true) /\
  (forall p d d', isOppositeDirection d d' = true ->
     getNextPosition (getNextPosition p d) d' = p) /\
  (forall p d, adjacent (getNextPosition p d) p).
Proof.
  split; [intros [] []; reflexivity |].
  split; [intros []; reflexivity |].
  split.
  { intros d. exists (match d with UP => DOWN | DOWN => UP | LEFT => RIGHT | RIGHT => LEFT end).
    split; [destruct d; reflexivity |]. intros d' H. destruct d, d'; try discriminate; reflexivity. }
  split.
  - intros [px py] d d' H. destruct d, d'; try discriminate; cbn; f_equal; lia.
  - intros [px py] d. unfold adjacent. destruct d; cbn; lia.
Qed.

(** X4. The initial snake is the horizontal run [(c,c), (c-1,c), (c-2,c)]
    with [c = boardSize / 2] (floored), its segments are contiguous, and
    they all lie on the board exactly when [boardSize >= 4]. *)
Theorem getInitialSnake_shape (bs : Z) :
  let c := bs / 2 in
  getInitialSnake bs = [mkPos c c; mkPos (c - 1) c; mkPos (c - 2) c] /\
  contiguous (getInitialSnake bs) /\
  ((forall p, In p (getInitialSnake bs) -> inBounds bs p) <-> 4 <= bs).
Proof.
  cbv zeta.
  assert (Heq : getInitialSnake bs = [mkPos (bs / 2) (bs / 2); mkPos (bs / 2 - 1) (bs / 2);
                                      mkPos (bs / 2 - 2) (bs / 2)]).
  { unfold getInitialSnake, INITIAL_SNAKE_LENGTH. cbn [map seq]. change (Z.of_nat 0) with 0. change (Z.of_nat 1) with 1. change (Z.of_nat 2) with 2. rewrite Z.sub_0_r. reflexivity. }
  split; [exact Heq |]. rewrite Heq. split.
  - cbn. unfold adjacent; cbn. repeat split; lia.
  - unfold inBounds. split.
    + intros H. destruct (H (mkPos (bs / 2 - 2) (bs / 2))) as [Hx _].
      { right; right; left; reflexivity. }
      cbn in Hx. Z.div_mod_to_equations. lia.
    + intros H4 p Hp. cbn in Hp.
      repeat destruct Hp as [<- | Hp]; try contradiction; cbn;
        Z.div_mod_to_equations; lia.
Qed.

(** X5. A key event changes at most [nextDirection]: keys other than the
    four arrow keys leave the state unchanged, and an arrow key either
    leaves it unchanged or queues the arrow's direction. *)
Theorem handleKeyPress_effect (key : string) (s : GameState) :
  (handleKeyPress key s = s \/
   exists d, handleKeyPress key s = with_nextDirection s (Some d) /\
     key = match d with UP => "ArrowUp" | DOWN => "ArrowDown"
                   | LEFT => "ArrowLeft" | RIGHT => "ArrowRight" end%string) /\
  (~ In key ["ArrowUp"; "ArrowDown"; "ArrowLeft"; "ArrowRight"]%string ->
   handleKeyPress key s = s).
Proof.
  assert (Hcd : forall d, changeDirection d s = s \/
                          changeDirection d s = with_nextDirection s (Some d)).
  { intros d. unfold changeDirection.
    destruct (negb _); [left; reflexivity |].
    destruct (isOppositeDirection _ _); [left | right]; reflexivity. }
  unfold handleKeyPress.
  destruct (String.eqb_spec key "ArrowUp") as [-> |];
    [| destruct (String.eqb_spec key "ArrowDown") as [-> |];
    [| destruct (String.eqb_spec key "ArrowLeft") as [-> |];
    [| destruct (String.eqb_spec key "ArrowRight") as [-> |]]]].
  1: destruct (Hcd UP) as [H | H]; [split; [left; exact H | intros Hn; exfalso; apply Hn; cbn; auto] |
       split; [right; exists UP; auto | intros Hn; exfalso; apply Hn; cbn; auto]].
  1: destruct (Hcd DOWN) as [H | H]; [split; [left; exact H | intros Hn; exfalso; apply Hn; cbn; auto] |
       split; [right; exists DOWN; auto | intros Hn; exfalso; apply Hn; cbn; auto]].
  1: destruct (Hcd LEFT) as [H | H]; [split; [left; exact H | intros Hn; exfalso; apply Hn; cbn; auto] |
       split; [right; exists LEFT; auto | intros Hn; exfalso; apply Hn; cbn; auto]].
  1: destruct (Hcd RIGHT) as [H | H]; [split; [left; exact H | intros Hn; exfalso; apply Hn; cbn; auto] |
       split; [right; exists RIGHT; auto | intros Hn; exfalso; apply Hn; cbn; auto]].
  split; [left; reflexivity | intros _; reflexivity].
Qed.

Lemma available_filter (bs : Z) (sn : list Position) :
  available bs sn = filter (fun p => negb (occupiedb sn p)) (boardCells bs).
Proof.
  unfold available, boardCells.
  assert (H : forall l, flat_map (fun i => filter (fun p => negb (occupiedb sn p))
                 (map (fun j => mkPos i j) (zrange bs))) l =
              filter (fun p => negb (occupiedb sn p))
                (flat_map (fun i => map (fun j => mkPos i j) (zrange bs)) l)).
  { induction l as [| i l IH]; [reflexivity |].
    cbn [flat_map]. rewrite filter_app, IH. reflexivity. }
  apply H.
Qed.

Lemma In_boardCells (bs : Z) (p : Position) : In p (boardCells bs) <-> inBounds bs p.
Proof.
  unfold boardCells, inBounds. rewrite in_flat_map. split.
  - intros [i [Hi Hp]]. apply in_map_iff in Hp as [j [<- Hj]].
    apply In_zrange in Hi, Hj. cbn. lia.
  - intros [Hx Hy]. exists (x p). split; [apply In_zrange; lia |].
    apply in_map_iff. exists (y p). split; [destruct p; reflexivity | apply In_zrange; lia].
Qed.

Lemma length_zrange (n : Z) : length (zrange n) = Z.to_nat n.
Proof. unfold zrange. rewrite length_map, length_seq. reflexivity. Qed.

Lemma NoDup_map_injective {A B} (f : A -> B) (l : list A) :
  (forall a b, f a = f b -> a = b) -> NoDup l -> NoDup (map f l).
Proof.
  intros Hinj Hl. induction Hl as [| a l Ha Hl IH]; cbn; constructor; [| exact IH].
  intros Hin. apply in_map_iff in Hin as [b [Hb Hbl]].
  apply Hinj in Hb. subst. contradiction.
Qed.

Lemma NoDup_zrange (n : Z) : NoDup (zrange n).
Proof.
  unfold zrange. apply NoDup_map_injective; [| apply seq_NoDup]. intros; lia.
Qed.

Lemma boardCells_length_NoDup (bs : Z) :
  length (boardCells bs) = (Z.to_nat bs * Z.to_nat bs)%nat /\ NoDup (boardCells bs).
Proof.
  unfold boardCells.
  assert (Hrow : forall i, length (map (fun j => mkPos i j) (zrange bs)) = Z.to_nat bs /\
                          NoDup (map (fun j => mkPos i j) (zrange bs))).
  { intros i. rewrite length_map, length_zrange. split; [reflexivity |].
    apply NoDup_map_injective; [| apply NoDup_zrange]. intros a b H; injection H; auto. }
  assert (Hgen : forall l, NoDup l ->
    length (flat_map (fun i => map (fun j => mkPos i j) (zrange bs)) l)
      = (length l * Z.to_nat bs)%nat /\
    NoDup (flat_map (fun i => map (fun j => mkPos i j) (zrange bs)) l)).
  { intros l Hnd. induction Hnd as [| i l Hi Hl IH]; [split; [reflexivity | constructor] |].
    cbn [flat_map length]. destruct IH as [IHlen IHnd].
    destruct (Hrow i) as [Hlen Hrnd]. split.
    - rewrite length_app, Hlen, IHlen. lia.
    - apply NoDup_app; [exact Hrnd | exact IHnd |].
      intros p Hp Hp'. apply in_map_iff in Hp as [j [<- _]].
      apply in_flat_map in Hp' as [i' [Hi' Hq]]. apply in_map_iff in Hq as [j' [Hq _]].
      injection Hq as -> _. contradiction. }
  destruct (Hgen (zrange bs) (NoDup_zrange bs)) as [H1 H2].
  rewrite length_zrange in H1. split; assumption.
Qed.

(** X6. The selector can return exactly the free cells of the board: a
    cell is the result for some outcome of [Math.random()] if and only if
    it is on the board and not on the snake. *)
Theorem getRandomEmptyPosition_support (bs : Z) (sn : list Position) (p : Position) :
  (exists rs, getRandomEmptyPosition rs bs sn = Some p) <-> inBounds bs p /\ ~ In p sn.
Proof.
  split.
  - intros [rs H]. exact (getRandomEmptyPosition_free rs bs sn p H).
  - intros Hfree. apply In_available in Hfree.
    destruct (In_nth_error _ _ Hfree) as [n Hn].
    assert (Hlt : (n < length (available bs sn))%nat)
      by (apply nth_error_Some; rewrite Hn; discriminate).
    assert (Hpick : forall m, (0 < m)%nat -> ((if Nat.ltb n m then n else 0) < m)%nat).
    { intros m Hm. destruct (Nat.ltb_spec n m); lia. }
    exists (mkRandom (fun m => if Nat.ltb n m then n else 0%nat) Hpick).
    unfold getRandomEmptyPosition. destruct (available bs sn) as [| p0 av] eqn:E.
    + destruct n; discriminate.
    + cbn [pick]. destruct (Nat.ltb_spec n (length (p0 :: av))) as [_ | Hge]; [| lia].
      f_equal. apply nth_error_nth. exact Hn.
Qed.

(** X7. For a snake of distinct on-board segments, the selector chooses
    among [boardSize * boardSize - length snake] candidate cells. *)
Theorem available_count (bs : Z) (sn : list Position)
  (Hnd : NoDup sn) (Hin : forall p, In p sn -> inBounds bs p) :
  (length (available bs sn) + length sn = Z.to_nat bs * Z.to_nat bs)%nat.
Proof.
  destruct (boardCells_length_NoDup bs) as [Hlen Hgnd].
  rewrite available_filter, <- Hlen, <- (filter_length (occupiedb sn) (boardCells bs)).
  rewrite Nat.add_comm. f_equal.
  apply Permutation_length. apply NoDup_Permutation; [exact Hnd | apply NoDup_filter; exact Hgnd |].
  intros q. rewrite filter_In, occupiedb_In, In_boardCells. split.
  - intros Hq. split; [apply Hin |]; exact Hq.
  - intros [_ Hq]. exact Hq.
Qed.

(** Induction over reachable states: a tick outside [PLAYING] is the
    identity, so only ticks of [PLAYING] states need checking. *)
Lemma reachable_invariant (bs : Z) (P : GameState -> Prop)
  (Hinit : forall rs s, initialState rs bs = Some s -> P s)
  (Hstart : forall rs s, startGame rs bs = Some s -> P s)
  (Htick : forall rs s s', status s = PLAYING -> P s -> moveSnake rs bs s = Some s' -> P s')
  (Hdir : forall d s, P s -> P (changeDirection d s)) :
  forall s, reachable bs s -> P s.
Proof.
  intros s Hr. induction Hr as [rs s H | rs s H | rs s s' Hr IH Hm | d s Hr IH].
  - exact (Hinit rs s H).
  - exact (Hstart rs s H).
  - destruct (status s) eqn:Es.
    2: exact (Htick rs s s' Es IH Hm).
    all: rewrite (moveSnake_not_playing rs bs s) in Hm by congruence;
      injection Hm as <-; exact IH.
  - exact (Hdir d s IH).
Qed.

(** A property of the snake, food and score only is kept by
    [changeDirection]. *)
Lemma changeDirection_keeps (P : list Position -> Position -> Z -> GameStatus -> Prop)
  (d : Direction) (s : GameState) :
  P (snake s) (food s) (score s) (status s) ->
  P (snake (changeDirection d s)) (food (changeDirection d s))
    (score (changeDirection d s)) (status (changeDirection d s)).
Proof.
  destruct (changeDirection_fields d s) as [-> [-> [-> ->]]]. exact (fun H => H).
Qed.

Lemma initial_start_snake (rs : RandomSource) (bs : Z) (s : GameState) :
  initialState rs bs = Some s \/ startGame rs bs = Some s ->
  snake s = getInitialSnake bs /\ inBounds bs (food s) /\ score s = 0.
Proof.
  intros H.
  assert (Hs : exists f, getRandomEmptyPosition rs bs (getInitialSnake bs) = Some f /\
                 snake s = getInitialSnake bs /\ food s = f /\ score s = 0).
  { unfold initialState, startGame in H; cbv zeta in H.
    destruct (getRandomEmptyPosition rs bs (getInitialSnake bs)) as [f |];
      destruct H as [H | H]; try discriminate;
      injection H as <-; exists f; repeat split. }
  destruct Hs as [f [E [Hsn [Hf Hsc]]]].
  apply getRandomEmptyPosition_free in E. rewrite Hf.
  split; [exact Hsn | split; [apply E | exact Hsc]].
Qed.

Lemma getInitialSnake_eq (bs : Z) :
  getInitialSnake bs = [mkPos (bs / 2) (bs / 2); mkPos (bs / 2 - 1) (bs / 2);
                        mkPos (bs / 2 - 2) (bs / 2)].
Proof.
  unfold getInitialSnake, INITIAL_SNAKE_LENGTH. cbn [map seq].
  change (Z.of_nat 0) with 0. change (Z.of_nat 1) with 1. change (Z.of_nat 2) with 2.
  rewrite Z.sub_0_r. reflexivity.
Qed.

Lemma next_adjacent (p : Position) (d : Direction) : adjacent (getNextPosition p d) p.
Proof. destruct p as [px py]; unfold adjacent; destruct d; cbn; lia. Qed.

Lemma contiguous_removelast (l : list Position) :
  contiguous l -> contiguous (removelast l).
Proof.
  induction l as [| a l IH]; [auto |].
  destruct l as [| b l]; [cbn; auto |].
  intros [Hab Hl]. change (removelast (a :: b :: l)) with (a :: removelast (b :: l)).
  specialize (IH Hl). destruct l as [| c l]; [cbn; auto |].
  change (removelast (b :: c :: l)) with (b :: removelast (c :: l)) in *.
  split; assumption.
Qed.

(** X8. In every reachable state each snake segment is adjacent to the one
    before it. *)
Theorem reachable_contiguous (bs : Z) (s : GameState) (Hr : reachable bs s) :
  contiguous (snake s).
Proof.
  assert (Hinit : contiguous (getInitialSnake bs)).
  { rewrite getInitialSnake_eq. cbn. unfold adjacent; cbn. repeat split; lia. }
  revert s Hr. apply reachable_invariant.
  - intros rs s H. rewrite (proj1 (initial_start_snake rs bs s (or_introl H))). exact Hinit.
  - intros rs s H. rewrite (proj1 (initial_start_snake rs bs s (or_intror H))). exact Hinit.
  - intros rs s s' Hp Hc Hm.
    destruct (moveSnake_outcomes rs bs s s' Hp Hm) as [-> | [h [r [Hsn [_ Hcase]]]]];
      [exact Hc |].
    cbv zeta in Hcase. rewrite Hsn in *.
    assert (Hadj : adjacent (newHeadOf s h) h) by apply next_adjacent.
    destruct Hcase as [[_ [_ ->]] | [_ [_ [[_ ->] | [[_ [_ ->]] | [_ [f [_ ->]]]]]]]];
      cbn [snake with_snake_food_score with_status with_snake_score].
    + change (removelast (newHeadOf s h :: h :: r))
        with (newHeadOf s h :: removelast (h :: r)).
      apply contiguous_removelast in Hc. destruct r as [| b r]; [cbn; auto |].
      change (removelast (h :: b :: r)) with (h :: removelast (b :: r)) in *.
      split; assumption.
    + split; assumption.
    + split; assumption.
    + split; assumption.
  - intros d s. apply (changeDirection_keeps (fun sn _ _ _ => contiguous sn)).
Qed.

(** X9. On a board of size at least 4, every segment of the snake of a
    reachable state lies on the board. *)
Theorem reachable_snake_in_bounds (bs : Z) (s : GameState) (H4 : 4 <= bs)
  (Hr : reachable bs s) : forall p, In p (snake s) -> inBounds bs p.
Proof.
  assert (Hinit : forall p, In p (getInitialSnake bs) -> inBounds bs p).
  { rewrite getInitialSnake_eq. unfold inBounds. intros p Hp.
    repeat destruct Hp as [<- | Hp]; try contradiction; cbn;
      Z.div_mod_to_equations; lia. }
  revert s Hr. apply (reachable_invariant bs (fun s => forall p, In p (snake s) -> inBounds bs p)).
  - intros rs s H. rewrite (proj1 (initial_start_snake rs bs s (or_introl H))). exact Hinit.
  - intros rs s H. rewrite (proj1 (initial_start_snake rs bs s (or_intror H))). exact Hinit.
  - intros rs s s' Hp Hc Hm.
    destruct (moveSnake_outcomes rs bs s s' Hp Hm) as [-> | [h [r [Hsn [Hin Hcase]]]]];
      [exact Hc |].
    cbv zeta in Hcase.
    destruct Hcase as [[_ [_ ->]] | [_ [_ [[_ ->] | [[_ [_ ->]] | [_ [f [_ ->]]]]]]]];
      cbn [snake with_snake_food_score with_status with_snake_score].
    + rewrite Hsn in *.
      change (removelast (newHeadOf s h :: h :: r))
        with (newHeadOf s h :: removelast (h :: r)).
      intros p [<- | Hq]; [exact Hin | apply Hc, In_removelast, Hq].
    + intros p [<- | Hq]; [exact Hin | apply Hc, Hq].
    + intros p [<- | Hq]; [exact Hin | apply Hc, Hq].
    + intros p [<- | Hq]; [exact Hin | apply Hc, Hq].
  - intros d s. apply (changeDirection_keeps (fun sn _ _ _ => forall p, In p sn -> inBounds bs p)).
Qed.

(** X10. In every reachable state the food lies on the board. *)
Theorem reachable_food_in_bounds (bs : Z) (s : GameState) (Hr : reachable bs s) :
  inBounds bs (food s).
Proof.
  revert s Hr. apply reachable_invariant.
  - intros rs s H. exact (proj1 (proj2 (initial_start_snake rs bs s (or_introl H)))).
  - intros rs s H. exact (proj1 (proj2 (initial_start_snake rs bs s (or_intror H)))).
  - intros rs s s' Hp Hc Hm.
    destruct (moveSnake_outcomes rs bs s s' Hp Hm) as [-> | [h [r [Hsn [Hin Hcase]]]]];
      [exact Hc |].
    cbv zeta in Hcase.
    destruct Hcase as [[_ [_ ->]] | [_ [_ [[_ ->] | [[_ [_ ->]] | [_ [f [Hf ->]]]]]]]];
      cbn [food with_snake_food_score with_status with_snake_score]; try exact Hc.
    apply (getRandomEmptyPosition_free rs bs _ f Hf).
  - intros d s. apply (changeDirection_keeps (fun _ f _ _ => inBounds bs f)).
Qed.

(** X11. In every reachable state the score lies in [[0, WINNING_SCORE]]
    and is a multiple of [POINTS_PER_FOOD]; while [PLAYING] it is below
    [WINNING_SCORE], so a score win ends at exactly [WINNING_SCORE]. *)
Theorem reachable_score_bounds (bs : Z) (s : GameState) (Hr : reachable bs s) :
  0 <= score s <= WINNING_SCORE /\ score s mod POINTS_PER_FOOD = 0 /\
  (status s = PLAYING -> score s < WINNING_SCORE).
Proof.
  unfold WINNING_SCORE, POINTS_PER_FOOD.
  revert s Hr. apply reachable_invariant.
  - intros rs s H. unfold initialState in H.
    destruct (getRandomEmptyPosition rs bs _); [| discriminate].
    injection H as <-. cbn. split; [lia | split; [reflexivity | discriminate]].
  - intros rs s H. rewrite (proj2 (proj2 (initial_start_snake rs bs s (or_intror H)))).
    split; [lia | split; [reflexivity | lia]].
  - intros rs s s' Hp Hc Hm.
    destruct (moveSnake_outcomes rs bs s s' Hp Hm) as [-> | [h [r [Hsn [Hin Hcase]]]]].
    { cbn. split; [apply Hc | split; [apply Hc | discriminate]]. }
    cbv zeta in Hcase. unfold WINNING_SCORE, POINTS_PER_FOOD in Hcase.
    destruct Hc as [Hb [Hmod Hlt]]. specialize (Hlt Hp).
    destruct Hcase as [[_ [_ ->]] | [_ [_ [[Hw ->] | [[Hw [_ ->]] | [Hw [f [_ ->]]]]]]]];
      cbn [score status with_snake_food_score with_status with_snake_score resolved
           with_nextDirection with_direction];
      unfold POINTS_PER_FOOD; rewrite ?Hp.
    + split; [lia | split; [exact Hmod | lia]].
    + split; [clear - Hb Hmod Hlt Hw; Z.div_mod_to_equations; lia | split; [| discriminate]].
      rewrite Z.add_mod, Hmod by lia. reflexivity.
    + split; [clear - Hb Hmod Hlt Hw; Z.div_mod_to_equations; lia | split; [| discriminate]].
      rewrite Z.add_mod, Hmod by lia. reflexivity.
    + split; [clear - Hb Hmod Hlt Hw; Z.div_mod_to_equations; lia | split; [| lia]].
      rewrite Z.add_mod, Hmod by lia. reflexivity.
  - intros d s.
    apply (changeDirection_keeps (fun _ _ sc st =>
      0 <= sc <= 30 /\ sc mod 3 = 0 /\ (st = PLAYING -> sc < 30))).
Qed.

(** X12. Two requests in one tick window can reverse the snake: a request
    [d] accepted against the reference direction, then a request [dr]
    accepted against [d], leave [dr] queued even when [dr] points from the
    head back onto the second segment; the next tick then runs the head
    into that segment and ends the game (for a snake of length >= 3 whose
    second segment is on the board). *)
Theorem double_request_reversal (rs : RandomSource) (bs : Z) (s : GameState)
  (h neck t : Position) (rest : list Position) (d dr : Direction)
  (Hplay : status s = PLAYING) (Hsn : snake s = h :: neck :: t :: rest)
  (Hacc1 : isOppositeDirection (effectiveDirection s) d = false)
  (Hacc2 : isOppositeDirection d dr = false)
  (Hneck : getNextPosition h dr = neck) (Hin : inBounds bs neck) :
  changeDirection dr (changeDirection d s) = with_nextDirection s (Some dr) /\
  moveSnake rs bs (changeDirection dr (changeDirection d s)) =
    Some (with_status (resolved (with_nextDirection s (Some dr))) GAME_OVER).
Proof.
  assert (H1 : changeDirection d s = with_nextDirection s (Some d)).
  { unfold changeDirection. rewrite Hacc1. rewrite Hplay at 1. reflexivity. }
  assert (H2 : changeDirection dr (changeDirection d s) = with_nextDirection s (Some dr)).
  { rewrite H1. unfold changeDirection.
    change (effectiveDirection (with_nextDirection s (Some d))) with d.
    change (status (with_nextDirection s (Some d))) with (status s).
    rewrite Hacc2. rewrite Hplay. reflexivity. }
  split; [exact H2 |]. rewrite H2.
  set (s2 := with_nextDirection s (Some dr)).
  assert (Hp2 : status s2 = PLAYING) by exact Hplay.
  assert (Hs2 : snake s2 = h :: neck :: t :: rest) by exact Hsn.
  assert (Hnh : newHeadOf s2 h = neck) by exact Hneck.
  destruct (moveSnake_some rs bs s2 h (neck :: t :: rest) Hp2 Hs2) as [s' Hm].
  rewrite Hm. f_equal.
  destruct (moveSnake_outcomes rs bs s2 s' Hp2 Hm) as [-> | [h' [r [Hsn' [_ Hcase]]]]];
    [reflexivity |].
  rewrite Hs2 in Hsn'. injection Hsn' as <- <-. cbv zeta in Hcase. rewrite Hnh in Hcase.
  rewrite Hs2 in Hcase. exfalso.
  destruct Hcase as [[_ [Hnc _]] | [_ [Hnc _]]]; apply Hnc.
  - change (removelast (h :: neck :: t :: rest)) with (h :: neck :: removelast (t :: rest)).
    right; left; reflexivity.
  - right; left; reflexivity.
Qed.

(** X13. Rendering of a valid state: the head cell gets the head class,
    every other segment the body class, the food cell the food class, and
    every other cell the empty class. *)
Theorem getCellClass_valid (s : GameState) (h : Position) (rest : list Position)
  (Hsn : snake s = h :: rest) (Hv : valid s) :
  getCellClass s h = headClass /\
  (forall p, In p rest -> getCellClass s p = bodyClass) /\
  getCellClass s (food s) = foodClass /\
  (forall p, ~ In p (snake s) -> p <> food s -> getCellClass s p = emptyClass).
Proof.
  destruct Hv as [Hnd [_ Hfood]].
  assert (Hne : forall p, p <> h -> pos_eqb p h = false).
  { intros p Hp. destruct (pos_eqb p h) eqn:E; [| reflexivity].
    apply pos_eqb_eq in E. contradiction. }
  unfold getCellClass, headKey. rewrite Hsn. split; [| split; [| split]].
  - replace (pos_eqb h h) with true by (symmetry; apply pos_eqb_eq; reflexivity).
    reflexivity.
  - intros p Hp. rewrite Hsn in Hnd. inversion Hnd as [| ? ? Hh _]; subst.
    rewrite Hne by (intros ->; contradiction).
    replace (occupiedb (h :: rest) p) with true
      by (symmetry; apply occupiedb_In; right; exact Hp).
    reflexivity.
  - rewrite Hne by (intros E; apply Hfood; rewrite Hsn, E; left; reflexivity).
    replace (occupiedb (h :: rest) (food s)) with false.
    2: { symmetry. destruct (occupiedb _ _) eqn:E; [| reflexivity].
         apply occupiedb_In in E. rewrite <- Hsn in E. contradiction. }
    replace (pos_eqb (food s) (food s)) with true
      by (symmetry; apply pos_eqb_eq; reflexivity).
    reflexivity.
  - intros p Hp Hpf.
    rewrite Hne by (intros ->; apply Hp; left; reflexivity).
    replace (occupiedb (h :: rest) p) with false.
    2: { symmetry. destruct (occupiedb _ _) eqn:E; [| reflexivity].
         apply occupiedb_In in E. contradiction. }
    replace (pos_eqb p (food s)) with false.
    2: { symmetry. destruct (pos_eqb _ _) eqn:E; [| reflexivity].
         apply pos_eqb_eq in E. contradiction. }
    reflexivity.
Qed.

(** ** Witnesses of the further properties *)

Lemma stateStart_reachable : reachable 20 stateStart.
Proof. apply (reach_start 20 rs0). vm_compute. reflexivity. Qed.

Lemma not_playing_frozen_witness :
  status (with_status stateA GAME_OVER) <> PLAYING /\
  moveSnake rs0 5 (with_status stateA GAME_OVER) = Some (with_status stateA GAME_OVER).
Proof.
  assert (Hnp : status (with_status stateA GAME_OVER) <> PLAYING) by discriminate.
  split; [exact Hnp |].
  exact (proj1 (not_playing_frozen rs0 5 (with_status stateA GAME_OVER) Hnp)).
Defined.

Lemma available_count_witness :
  (length (available 20 (getInitialSnake 20)) + 3 = 400)%nat.
Proof.
  apply (available_count 20 (getInitialSnake 20) (getInitialSnake_NoDup 20)).
  intros p Hp. rewrite getInitialSnake_eq in Hp. unfold inBounds.
  repeat destruct Hp as [<- | Hp]; try contradiction; cbn; lia.
Defined.

Lemma reachable_contiguous_witness :
  reachable 20 stateStart /\ contiguous (snake stateStart).
Proof.
  split; [exact stateStart_reachable |].
  exact (reachable_contiguous 20 stateStart stateStart_reachable).
Defined.

Lemma reachable_snake_in_bounds_witness :
  4 <= 20 /\ inBounds 20 (mkPos 8 10).
Proof.
  assert (H4 : 4 <= 20) by lia. split; [exact H4 |].
  apply (reachable_snake_in_bounds 20 stateStart H4 stateStart_reachable).
  right; right; left; reflexivity.
Defined.

Lemma reachable_food_in_bounds_witness :
  reachable 20 stateStart /\ inBounds 20 (food stateStart).
Proof.
  split; [exact stateStart_reachable |].
  exact (reachable_food_in_bounds 20 stateStart stateStart_reachable).
Defined.

Lemma reachable_score_bounds_witness :
  reachable 20 stateStart /\ 0 <= score stateStart <= WINNING_SCORE.
Proof.
  split; [exact stateStart_reachable |].
  exact (proj1 (reachable_score_bounds 20 stateStart stateStart_reachable)).
Defined.

Lemma double_request_reversal_witness :
  option_map status (moveSnake rs0 20 (changeDirection LEFT (changeDirection UP stateB)))
  = Some GAME_OVER.
Proof.
  rewrite (proj2 (double_request_reversal rs0 20 stateB (mkPos 10 10) (mkPos 9 10)
                    (mkPos 8 10) [] UP LEFT eq_refl eq_refl eq_refl eq_refl eq_refl
                    ltac:(unfold inBounds; cbn; lia))).
  reflexivity.
Defined.

Lemma getCellClass_valid_witness :
  getCellClass stateStart (mkPos 10 10) = headClass /\
  getCellClass stateStart (food stateStart) = foodClass.
Proof.
  assert (Hv : valid stateStart) by (apply (startGame_valid rs0 20); vm_compute; reflexivity).
  destruct (getCellClass_valid stateStart (mkPos 10 10) [mkPos 9 10; mkPos 8 10] eq_refl Hv)
    as [Hh [_ [Hf _]]].
  split; [exact Hh | exact Hf].
Defined.
